(** * providers/redhat/package_feed.go

    A shallow embedding of the package index of the Red Hat provider
    (method [PackageFeed] of [Feed], helper [addPackage]) and of the
    resolver [ListFixedCVEs], followed by the properties the specification
    states about them.

    The collaborators the file imports ([rpm.Parse], [wfn.Parse],
    [feed.Checker], [log.Printf]) are not part of the file: the parsers and
    the checker constructor are parameters of the model, and every call to
    one of them is recorded in a trace, so that "is never called" is a
    statement about the trace. *)

From stdpp Require Import strings gmap functions list.

(** ** Data *)

(** A Go call returning [(value, error)]. *)
Inductive result (E A : Type) : Type :=
  | Ok (a : A)
  | Err (e : E).
Arguments Ok {E A} a.
Arguments Err {E A} e.

(** Package [schema]: the fields of an advisory that package_feed.go reads. *)
Module schema.
Record AffectedRelease_t : Type := { Package : string }.
Record PackageState_t : Type := { PackageName : string }.
Record CVE : Type := {
  Name : string;
  AffectedRelease : list AffectedRelease_t;
  PackageState : list PackageState_t
}.
End schema.

(** Package [rpm]. *)
Module rpm.
(** Modelled from the spec: the package identifier returned by the
    package-specifier parser, [PackageIdentifier{name, version, release}];
    the struct declaration is not in package_feed.go, which reads only
    [Name]. *)
Record Package : Type := { Name : string; Version : string; Release : string }.

(** The interface [rpm.Checker], whose one method is
    [Check(pkg, distro, cve) bool]; [D] is the parsed distribution. *)
Record Checker (D : Type) : Type :=
  { Check : Package → D → string → bool }.
Arguments Check {D} _ _ _ _.
End rpm.

(** [*schema.CVE]: advisories are shared by reference and only read. A
    reference is an address; the heap that holds the records is a parameter
    of the model. The references of a feed are not nil, so every one of them
    has a record. *)
Abbreviation ptr := positive.

(** Modelled from the spec: the declaration of [Feed] is not in
    package_feed.go, which only ranges over it. The spec has the advisory
    collection as an ordered sequence of advisory records. *)
Abbreviation Feed := (list ptr).

(** [type PackageFeed map[string][]*schema.CVE] *)
Abbreviation PackageFeedT := (gmap string (list ptr)).

(** ** Calls to collaborators *)

(** What the code does that is visible outside it. *)
Inductive event (D : Type) : Type :=
  | wfn_Parse_call (distro : string)
  | rpm_Parse_call (pkg : string)
  | log_Printf_call (pkg : string)
  | PackageFeed_call
  | Checker_call
  | Check_call (p : rpm.Package) (d : D) (cve : string).
Arguments wfn_Parse_call {D} distro.
Arguments rpm_Parse_call {D} pkg.
Arguments log_Printf_call {D} pkg.
Arguments PackageFeed_call {D}.
Arguments Checker_call {D}.
Arguments Check_call {D} p d cve.

(** A computation returns the calls it made, in order, and its value. *)
Definition M (D A : Type) : Type := list (event D) * A.

Definition M_ret {D A} (a : A) : M D A := ([], a).

Definition M_bind {D A B} (f : A → M D B) (m : M D A) : M D B :=
  (m.1 ++ (f m.2).1, (f m.2).2).

#[export] Instance M_mret D : MRet (M D) := @M_ret D.
#[export] Instance M_mbind D : MBind (M D) := @M_bind D.

Definition emit {D} (e : event D) : M D unit := ([e], tt).

Definition trace {D A} (m : M D A) : list (event D) := m.1.
Definition value {D A} (m : M D A) : A := m.2.

(** [for _, x := range xs { s = body(s, x) }] *)
Fixpoint for_range {D A S} (xs : list A) (s : S) (body : S → A → M D S) : M D S :=
  match xs with
  | [] => mret s
  | x :: xs' => s' ← body s x; for_range xs' s' body
  end.

(** ** addPackage *)

(** The loop of [addPackage]: [rest] is what remains to be scanned of
    [pkgs]. *)
Fixpoint addPackage_loop (pkgs rest : list string) (pkg : string) : list string :=
  match rest with
  | [] => pkgs ++ [pkg]
  | p :: rest' => if decide (p = pkg) then pkgs else addPackage_loop pkgs rest' pkg
  end.

Definition addPackage (pkgs : list string) (pkg : string) : list string :=
  addPackage_loop pkgs pkgs pkg.

(** ** Errors of ListFixedCVEs *)

(** The three error returns: the two [fmt.Errorf] messages, which carry the
    offending input and the parser's error, and [errors.Wrapf(err, "list")]. *)
Inductive list_error (E : Type) : Type :=
  | cant_parse_distro_cpe (distro : string) (err : E)
  | cant_parse_package_name (pkg : string) (err : E)
  | list_Wrapf (err : E).
Arguments cant_parse_distro_cpe {E} distro err.
Arguments cant_parse_package_name {E} pkg err.
Arguments list_Wrapf {E} err.

(** The spec's taxonomy of these errors. *)
Definition is_ParseError {E} (e : list_error E) : bool :=
  match e with
  | cant_parse_distro_cpe _ _ | cant_parse_package_name _ _ => true
  | list_Wrapf _ => false
  end.

Definition is_ConstructionError {E} (e : list_error E) : bool :=
  match e with
  | list_Wrapf _ => true
  | _ => false
  end.

(** ** PackageFeed and ListFixedCVEs *)

Section Code.
Context {E D : Type}.
(** [wfn.Parse], [rpm.Parse] and the method [Checker] of [Feed]. *)
Variable wfn_Parse : string → result E D.
Variable rpm_Parse : string → result E rpm.Package.
Variable Checker : Feed → result E (rpm.Checker D).
(** The records the references of the feed point to. *)
Variable heap : ptr → schema.CVE.

Definition call_wfn_Parse (distro : string) : M D (result E D) :=
  _ ← emit (wfn_Parse_call distro); mret (wfn_Parse distro).

Definition call_rpm_Parse (pkg : string) : M D (result E rpm.Package) :=
  _ ← emit (rpm_Parse_call pkg); mret (rpm_Parse pkg).

Definition call_Checker (feed : Feed) : M D (result E (rpm.Checker D)) :=
  _ ← emit Checker_call; mret (Checker feed).

Definition call_Check (checker : rpm.Checker D)
    (p : rpm.Package) (d : D) (cve : string) : M D bool :=
  _ ← emit (Check_call p d cve); mret (rpm.Check checker p d cve).

(** Body of the loop "1. look at AffectedRelease". *)
Definition look_at_AffectedRelease
    (pkgs : list string) (ar : schema.AffectedRelease_t) : M D (list string) :=
  if decide (schema.Package ar = "") then mret pkgs
  else
    r ← call_rpm_Parse (schema.Package ar);
    match r with
    | Err _ => _ ← emit (log_Printf_call (schema.Package ar)); mret pkgs
    | Ok rpmPkg => mret (addPackage pkgs (rpm.Name rpmPkg))
    end.

(** Body of the loop "2. look at PackageState". *)
Definition look_at_PackageState
    (pkgs : list string) (ps : schema.PackageState_t) : M D (list string) :=
  if decide (schema.PackageName ps = "") then mret pkgs
  else mret (addPackage pkgs (schema.PackageName ps)).

(** The candidate names [pkgs] of one advisory, after both loops. *)
Definition pkgs_of (c : schema.CVE) : M D (list string) :=
  pkgs ← for_range (schema.AffectedRelease c) [] look_at_AffectedRelease;
  for_range (schema.PackageState c) pkgs look_at_PackageState.

(** [pkgFeed[pkg] = append(pkgFeed[pkg], cve)]: a missing key reads as the
    nil slice. *)
Definition append_cve (cve : ptr) (pkgFeed : PackageFeedT) (pkg : string) : PackageFeedT :=
  <[pkg := pkgFeed !!! pkg ++ [cve]]> pkgFeed.

(** Body of the loop over the feed. *)
Definition PackageFeed_cve (pkgFeed : PackageFeedT) (cve : ptr) : M D PackageFeedT :=
  pkgs ← pkgs_of (heap cve);
  for_range pkgs pkgFeed (λ pkgFeed pkg, mret (append_cve cve pkgFeed pkg)).

Definition PackageFeed (feed : Feed) : M D PackageFeedT :=
  _ ← emit PackageFeed_call;
  for_range feed ∅ PackageFeed_cve.

(** Body of the loop over the bucket of [p.Name]. *)
Definition check_cve (checker : rpm.Checker D) (p : rpm.Package) (d : D)
    (cves : list string) (cve : ptr) : M D (list string) :=
  b ← call_Check checker p d (schema.Name (heap cve));
  if b : bool then mret (cves ++ [schema.Name (heap cve)]) else mret cves.

Definition ListFixedCVEs (feed : Feed) (distro pkg : string)
    : M D (result (list_error E) (list string)) :=
  r ← call_wfn_Parse distro;
  match r with
  | Err err => mret (Err (cant_parse_distro_cpe distro err))
  | Ok d =>
    r ← call_rpm_Parse pkg;
    match r with
    | Err err => mret (Err (cant_parse_package_name pkg err))
    | Ok p =>
      pkgFeed ← PackageFeed feed;
      r ← call_Checker feed;
      match r with
      | Err err => mret (Err (list_Wrapf err))
      | Ok checker =>
        cves ← for_range (pkgFeed !!! rpm.Name p) [] (check_cve checker p d);
        mret (Ok cves)
      end
    end
  end.

(** *** What the statements below talk about *)

(** The candidate names of an advisory and the index of a feed, as the
    code computes them. *)
Definition candidates (c : schema.CVE) : list string := value (pkgs_of c).

Definition index (feed : Feed) : PackageFeedT := value (PackageFeed feed).

(** The advisories of [feed], in the order of [feed], that have [k] among
    their candidate names. *)
Definition advisories_naming (k : string) (feed : Feed) : list ptr :=
  filter (λ cve, k ∈ candidates (heap cve)) feed.

(** A release-fix entry of [c] yields the base name [k]: its specifier is
    not empty and parses to a package named [k]. *)
Definition release_fix_yields (c : schema.CVE) (k : string) : Prop :=
  ∃ ar rpmPkg, ar ∈ schema.AffectedRelease c ∧ schema.Package ar ≠ "" ∧
    rpm_Parse (schema.Package ar) = Ok rpmPkg ∧ rpm.Name rpmPkg = k.

(** A package-state entry of [c] yields the base name [k]. *)
Definition package_state_yields (c : schema.CVE) (k : string) : Prop :=
  ∃ ps, ps ∈ schema.PackageState c ∧ schema.PackageName ps ≠ "" ∧
    schema.PackageName ps = k.
End Code.



(** How often the reference [cve] occurs in a list of references. *)
Definition occurrences (cve : ptr) (l : list ptr) : nat :=
  length (filter (λ x, x = cve) l).

(** The calls that build the index or that construct or ask the oracle. *)
Definition beyond_parsing {D} (ev : event D) : bool :=
  match ev with
  | wfn_Parse_call _ | rpm_Parse_call _ => false
  | _ => true
  end.

(** A call that stopped at a parser: it returns the error [e], a ParseError,
    after the calls [t], none of which goes beyond parsing. *)
Definition stops_at_parsing {E D A} (r : M D (result (list_error E) A))
    (e : list_error E) (t : list (event D)) : Prop :=
  value r = Err e ∧ is_ParseError e = true ∧
  trace r = t ∧ Forall (λ ev, beyond_parsing ev = false) t.

(** The advisory [c] without its release-fix entry number [i]. *)
Definition omit_AffectedRelease (i : nat) (c : schema.CVE) : schema.CVE :=
  {| schema.Name := schema.Name c;
     schema.AffectedRelease := delete i (schema.AffectedRelease c);
     schema.PackageState := schema.PackageState c |}.

(** *** The names of an advisory, entry by entry *)

(** The name a release-fix entry gives, if it gives one: the entry has a
    specifier, and the specifier parses. *)
Definition name_of_AffectedRelease {E} (rpm_Parse : string → result E rpm.Package)
    (ar : schema.AffectedRelease_t) : option string :=
  if decide (schema.Package ar = "") then None
  else match rpm_Parse (schema.Package ar) with
       | Ok rpmPkg => Some (rpm.Name rpmPkg)
       | Err _ => None
       end.

(** The name a package-state entry gives, if it gives one. *)
Definition name_of_PackageState (ps : schema.PackageState_t) : option string :=
  if decide (schema.PackageName ps = "") then None else Some (schema.PackageName ps).

(** All the names the entries of [c] give, repetitions included: those of
    the release-fix entries, then those of the package-state entries. *)
Definition yielded_names {E} (rpm_Parse : string → result E rpm.Package)
    (c : schema.CVE) : list string :=
  omap (name_of_AffectedRelease rpm_Parse) (schema.AffectedRelease c) ++
  omap name_of_PackageState (schema.PackageState c).

(** A list without the repetitions of its elements: each element stays
    where it is first. *)
Fixpoint first_occurrences (l : list string) : list string :=
  match l with
  | [] => []
  | x :: l' => x :: filter (λ y, y ≠ x) (first_occurrences l')
  end.

(** *** The calls of a build *)

(** The calls one release-fix entry causes: none when it has no specifier,
    else the parser, and the log when the parser fails. *)
Definition calls_of_AffectedRelease {E D} (rpm_Parse : string → result E rpm.Package)
    (ar : schema.AffectedRelease_t) : list (event D) :=
  if decide (schema.Package ar = "") then []
  else rpm_Parse_call (schema.Package ar) ::
       match rpm_Parse (schema.Package ar) with
       | Ok _ => []
       | Err _ => [log_Printf_call (schema.Package ar)]
       end.

(** The calls the release-fix entries of the advisories of [feed] cause, in
    the order of the feed and of the entries. *)
Definition calls_of_feed {E D} (rpm_Parse : string → result E rpm.Package)
    (heap : ptr → schema.CVE) (feed : Feed) : list (event D) :=
  flat_map (λ cve, flat_map (calls_of_AffectedRelease rpm_Parse)
                     (schema.AffectedRelease (heap cve))) feed.

(** ** Stand-ins for the collaborators

    Concrete parsers, oracles and heaps on which the model runs. They stand
    for the repository's own, which are outside this file. *)
Module Demo.
(** Splits [s] at its last [sep]. *)
Fixpoint cut_last (sep : Ascii.ascii) (s : string) : option (string * string) :=
  match s with
  | EmptyString => None
  | String a s' =>
    match cut_last sep s' with
    | Some (l, r) => Some (String a l, r)
    | None => if Ascii.eqb a sep then Some (EmptyString, s') else None
    end
  end.

Definition hyphen : Ascii.ascii := Ascii.ascii_of_nat 45.

(** A specifier parser for [name-version-release]: the release follows
    the last hyphen, the version the one before, the rest is the name. *)
Definition rpm_Parse (pkg : string) : result string rpm.Package :=
  match cut_last hyphen pkg with
  | None => Err "can't find release"
  | Some (pkg', release) =>
    match cut_last hyphen pkg' with
    | None => Err "can't find version"
    | Some (name, version) =>
      Ok {| rpm.Name := name; rpm.Version := version; rpm.Release := release |}
    end
  end.

(** The same parser, refusing a specifier whose name would be empty. *)
Definition rpm_Parse_named (pkg : string) : result string rpm.Package :=
  match rpm_Parse pkg with
  | Ok rpmPkg => if decide (rpm.Name rpmPkg = "") then Err "can't find name" else Ok rpmPkg
  | Err err => Err err
  end.

(** A platform parser that accepts the strings starting with [cpe:/]
    and keeps them as they are. *)
Definition wfn_Parse (distro : string) : result string string :=
  if String.prefix "cpe:/" distro then Ok distro else Err "bad cpe".

(** Oracles that answer the same for every advisory. *)
Definition constant_checker (b : bool) : rpm.Checker string :=
  {| rpm.Check := λ _ _ _, b |}.

Definition Checker (b : bool) (feed : Feed) : result string (rpm.Checker string) :=
  Ok (constant_checker b).

(** An oracle that knows one advisory only. *)
Definition Checker_of (name : string) (feed : Feed) : result string (rpm.Checker string) :=
  Ok {| rpm.Check := λ _ _ cve, bool_decide (cve = name) |}.

Definition cve_2020_0001 : schema.CVE :=
  {| schema.Name := "CVE-2020-0001";
     schema.AffectedRelease := [ {| schema.Package := "bash-4.4-20.el8" |} ];
     schema.PackageState := [] |}.

(** Both sources name bash; one specifier does not parse. *)
Definition cve_2020_0002 : schema.CVE :=
  {| schema.Name := "CVE-2020-0002";
     schema.AffectedRelease :=
       [ {| schema.Package := "" |}; {| schema.Package := "bash" |};
         {| schema.Package := "bash-4.4-21.el8" |} ];
     schema.PackageState :=
       [ {| schema.PackageName := "" |}; {| schema.PackageName := "bash" |};
         {| schema.PackageName := "zsh" |} ] |}.

(** No entry gives a name. *)
Definition cve_2020_0003 : schema.CVE :=
  {| schema.Name := "CVE-2020-0003";
     schema.AffectedRelease := [ {| schema.Package := "" |}; {| schema.Package := "bash" |} ];
     schema.PackageState := [ {| schema.PackageName := "" |} ] |}.

(** A specifier that starts with a hyphen. *)
Definition cve_2020_0004 : schema.CVE :=
  {| schema.Name := "CVE-2020-0004";
     schema.AffectedRelease := [ {| schema.Package := "-4.4-20.el8" |} ];
     schema.PackageState := [] |}.

(** An empty specifier next to a package-state name. *)
Definition cve_2020_0005 : schema.CVE :=
  {| schema.Name := "CVE-2020-0005";
     schema.AffectedRelease := [ {| schema.Package := "" |} ];
     schema.PackageState := [ {| schema.PackageName := "bash" |} ] |}.

Definition heap (cve : ptr) : schema.CVE :=
  match cve with
  | 1%positive => cve_2020_0001
  | 2%positive => cve_2020_0002
  | 3%positive => cve_2020_0003
  | 4%positive => cve_2020_0004
  | _ => cve_2020_0005
  end.

Definition rhel8 : string := "cpe:/o:redhat:enterprise_linux:8".

(** A constructor that has no oracle to give. *)
Definition Checker_fails (feed : Feed) : result string (rpm.Checker string) :=
  Err "no checker".

Definition bash_4_4_23 : rpm.Package :=
  {| rpm.Name := "bash"; rpm.Version := "4.4"; rpm.Release := "23.el8" |}.
End Demo.

(** ** The trace monad *)

Section Monad.
Context {D : Type}.

Lemma value_bind {A B} (m : M D A) (f : A → M D B) :
  value (m ≫= f) = value (f (value m)).
Proof. reflexivity. Qed.

Lemma trace_bind {A B} (m : M D A) (f : A → M D B) :
  trace (m ≫= f) = trace m ++ trace (f (value m)).
Proof. reflexivity. Qed.

(** The value of a loop is the left fold of the values of its body. *)
Lemma value_for_range {A S} (xs : list A) (s : S) (body : S → A → M D S) :
  value (for_range xs s body) = foldl (λ s x, value (body s x)) s xs.
Proof.
  revert s. induction xs as [|x xs IH]; intros s; [done|].
  cbn [for_range foldl]. by rewrite value_bind, IH.
Qed.

End Monad.

(** ** addPackage *)

Section addPackage.
Implicit Types (pkgs rest : list string) (pkg k : string).

Lemma addPackage_loop_spec pkgs rest pkg :
  addPackage_loop pkgs rest pkg = if decide (pkg ∈ rest) then pkgs else pkgs ++ [pkg].
Proof.
  induction rest as [|p rest IH]; cbn [addPackage_loop].
  - rewrite decide_False; [done|]. apply not_elem_of_nil.
  - destruct (decide (p = pkg)) as [->|Hne].
    + rewrite decide_True; [done|]. left.
    + rewrite IH. destruct (decide (pkg ∈ rest)) as [Hin|Hnin].
      * rewrite decide_True; [done|]. by right.
      * rewrite decide_False; [done|]. rewrite elem_of_cons. intros [?|?]; congruence.
Qed.

(** [addPackage] appends [pkg] unless it is there already. *)
Lemma addPackage_spec pkgs pkg :
  addPackage pkgs pkg = if decide (pkg ∈ pkgs) then pkgs else pkgs ++ [pkg].
Proof. apply addPackage_loop_spec. Qed.

Lemma elem_of_addPackage pkgs pkg k :
  k ∈ addPackage pkgs pkg ↔ k ∈ pkgs ∨ k = pkg.
Proof.
  rewrite addPackage_spec. case_decide.
  - split; [by left|]. by intros [?| ->].
  - rewrite elem_of_app, list_elem_of_singleton. done.
Qed.

Lemma NoDup_addPackage pkgs pkg : NoDup pkgs → NoDup (addPackage pkgs pkg).
Proof.
  intros Hnd. rewrite addPackage_spec. case_decide; [done|].
  apply NoDup_app. split_and!; [done| |apply NoDup_singleton].
  intros x Hx ->%list_elem_of_singleton. done.
Qed.
End addPackage.

(** ** The candidate names of an advisory *)

Section Candidates.
Context {E D : Type}.
Variable rpm_Parse : string → result E rpm.Package.
Implicit Types (pkgs : list string) (k : string) (c : schema.CVE).

Lemma value_look_at_AffectedRelease pkgs ar :
  value (look_at_AffectedRelease (D:=D) rpm_Parse pkgs ar) =
    if decide (schema.Package ar = "") then pkgs
    else match rpm_Parse (schema.Package ar) with
         | Ok rpmPkg => addPackage pkgs (rpm.Name rpmPkg)
         | Err _ => pkgs
         end.
Proof.
  unfold look_at_AffectedRelease. case_decide; [done|].
  rewrite value_bind. unfold call_rpm_Parse. rewrite value_bind. cbn.
  by destruct (rpm_Parse _).
Qed.

Lemma value_look_at_PackageState pkgs ps :
  value (look_at_PackageState (D:=D) pkgs ps) =
    if decide (schema.PackageName ps = "") then pkgs
    else addPackage pkgs (schema.PackageName ps).
Proof. unfold look_at_PackageState. by case_decide. Qed.

(** The first loop, from any list of names found so far. *)
Lemma elem_of_AffectedRelease_loop ars pkgs k :
  k ∈ value (for_range (D:=D) ars pkgs (look_at_AffectedRelease rpm_Parse)) ↔
  k ∈ pkgs ∨ ∃ ar rpmPkg, ar ∈ ars ∧ schema.Package ar ≠ "" ∧
    rpm_Parse (schema.Package ar) = Ok rpmPkg ∧ rpm.Name rpmPkg = k.
Proof.
  rewrite value_for_range. revert pkgs.
  induction ars as [|ar ars IH]; intros pkgs; cbn [foldl].
  - split; [by left|]. intros [?|(ar & ? & []%not_elem_of_nil & _)]. done.
  - rewrite IH, value_look_at_AffectedRelease. clear IH.
    destruct (decide (schema.Package ar = "")) as [Hempty|Hfull].
    { split; (intros [?|(ar' & q & Har' & Hne & Hq & Hk)]; [by left|right]).
      - exists ar', q. split_and!; [by right|done..].
      - apply elem_of_cons in Har' as [->|Har']; [done|]. by exists ar', q. }
    destruct (rpm_Parse (schema.Package ar)) as [rpmPkg|e] eqn:Hparse.
    + rewrite elem_of_addPackage. split.
      * intros [[?| ->]|(ar' & q & Har' & Hne & Hq & Hk)]; [by left|right..].
        -- exists ar, rpmPkg. split_and!; [by left|done..].
        -- exists ar', q. split_and!; [by right|done..].
      * intros [?|(ar' & q & Har' & Hne & Hq & Hk)]; [by left; left|].
        apply elem_of_cons in Har' as [->|Har'].
        -- left; right. congruence.
        -- right. by exists ar', q.
    + split; (intros [?|(ar' & q & Har' & Hne & Hq & Hk)]; [by left|right]).
      * exists ar', q. split_and!; [by right|done..].
      * apply elem_of_cons in Har' as [->|Har']; [congruence|]. by exists ar', q.
Qed.

Lemma NoDup_AffectedRelease_loop ars pkgs :
  NoDup pkgs →
  NoDup (value (for_range (D:=D) ars pkgs (look_at_AffectedRelease rpm_Parse))).
Proof.
  rewrite value_for_range. revert pkgs.
  induction ars as [|ar ars IH]; intros pkgs Hnd; cbn [foldl]; [done|].
  apply IH. rewrite value_look_at_AffectedRelease.
  case_decide; [done|]. destruct (rpm_Parse _); [|done].
  by apply NoDup_addPackage.
Qed.

(** The second loop. *)
Lemma elem_of_PackageState_loop pss pkgs k :
  k ∈ value (for_range (D:=D) pss pkgs look_at_PackageState) ↔
  k ∈ pkgs ∨ ∃ ps, ps ∈ pss ∧ schema.PackageName ps ≠ "" ∧ schema.PackageName ps = k.
Proof.
  rewrite value_for_range. revert pkgs.
  induction pss as [|ps pss IH]; intros pkgs; cbn [foldl].
  - split; [by left|]. intros [?|(ps & []%not_elem_of_nil & _)]. done.
  - rewrite IH, value_look_at_PackageState. clear IH.
    destruct (decide (schema.PackageName ps = "")) as [Hempty|Hfull].
    { split; (intros [?|(ps' & Hps' & Hne & Hk)]; [by left|right]).
      - exists ps'. split_and!; [by right|done..].
      - apply elem_of_cons in Hps' as [->|Hps']; [done|]. by exists ps'. }
    rewrite elem_of_addPackage. split.
    + intros [[?| ->]|(ps' & Hps' & Hne & Hk)]; [by left|right..].
      * exists ps. split_and!; [by left|done..].
      * exists ps'. split_and!; [by right|done..].
    + intros [?|(ps' & Hps' & Hne & Hk)]; [by left; left|].
      apply elem_of_cons in Hps' as [->|Hps'].
      * left; right. congruence.
      * right. by exists ps'.
Qed.

Lemma NoDup_PackageState_loop pss pkgs :
  NoDup pkgs → NoDup (value (for_range (D:=D) pss pkgs look_at_PackageState)).
Proof.
  rewrite value_for_range. revert pkgs.
  induction pss as [|ps pss IH]; intros pkgs Hnd; cbn [foldl]; [done|].
  apply IH. rewrite value_look_at_PackageState.
  case_decide; [done|]. by apply NoDup_addPackage.
Qed.

(** A name is a candidate exactly when one of the two sources yields it. *)
Lemma elem_of_candidates c k :
  k ∈ candidates (D:=D) rpm_Parse c ↔
  release_fix_yields rpm_Parse c k ∨ package_state_yields c k.
Proof.
  unfold candidates, pkgs_of. rewrite value_bind, elem_of_PackageState_loop.
  rewrite elem_of_AffectedRelease_loop.
  unfold release_fix_yields, package_state_yields.
  split; [intros [[[]%not_elem_of_nil|?]|?]|intros [?|?]]; auto.
Qed.

(** An advisory has no candidate name exactly when neither source yields
    one. *)
Lemma candidates_nil c :
  candidates (D:=D) rpm_Parse c = [] ↔
  ∀ k, ¬ release_fix_yields rpm_Parse c k ∧ ¬ package_state_yields c k.
Proof.
  split.
  - intros Hnil k.
    assert (k ∉ candidates (D:=D) rpm_Parse c) as Hk by (rewrite Hnil; apply not_elem_of_nil).
    rewrite elem_of_candidates in Hk. tauto.
  - intros Hnone. apply elem_of_nil_inv. intros k Hk%elem_of_candidates.
    destruct (Hnone k). tauto.
Qed.

(** The candidate names of an advisory are pairwise different. *)
Lemma NoDup_candidates c : NoDup (candidates (D:=D) rpm_Parse c).
Proof.
  unfold candidates, pkgs_of. rewrite value_bind.
  apply NoDup_PackageState_loop, NoDup_AffectedRelease_loop, NoDup_nil_2.
Qed.
End Candidates.

(** ** The index of a feed *)

Section Index.
Context {E D : Type}.
Variable rpm_Parse : string → result E rpm.Package.
Variable heap : ptr → schema.CVE.
Implicit Types (pkgFeed : gmap string (list ptr)) (feed : list ptr).
Implicit Types (pkgs : list string) (k : string) (cve : ptr).

(** Reading a key that may be missing. *)
Lemma lookup_total_bucket pkgFeed k : pkgFeed !!! k = default [] (pkgFeed !! k).
Proof. by rewrite lookup_total_alt. Qed.

(** The innermost loop appends [cve] to the bucket of each of [pkgs],
    once when [pkgs] has no duplicates, and touches no other bucket. *)
Lemma lookup_append_loop cve pkgs pkgFeed k :
  NoDup pkgs →
  foldl (append_cve cve) pkgFeed pkgs !! k =
    if decide (k ∈ pkgs) then Some (pkgFeed !!! k ++ [cve]) else pkgFeed !! k.
Proof.
  revert pkgFeed. induction pkgs as [|p pkgs IH]; intros pkgFeed Hnd; cbn [foldl].
  { rewrite decide_False; [done|]. apply not_elem_of_nil. }
  apply NoDup_cons in Hnd as [Hp Hnd]. rewrite IH by done. unfold append_cve.
  destruct (decide (k = p)) as [->|Hne].
  - rewrite decide_False by done. rewrite decide_True by left.
    by rewrite lookup_insert_eq.
  - rewrite lookup_total_insert_ne, lookup_insert_ne by done.
    destruct (decide (k ∈ pkgs)) as [Hin|Hnin].
    + rewrite decide_True; [done|]. by right.
    + rewrite decide_False; [done|]. rewrite elem_of_cons. intros [?|?]; done.
Qed.

Lemma value_PackageFeed_cve pkgFeed cve :
  value (PackageFeed_cve (D:=D) rpm_Parse heap pkgFeed cve) =
    foldl (append_cve cve) pkgFeed (candidates (D:=D) rpm_Parse (heap cve)).
Proof.
  unfold PackageFeed_cve. rewrite value_bind, value_for_range. done.
Qed.

(** One advisory of the feed: its reference is appended to the buckets of
    its candidate names. *)
Lemma lookup_PackageFeed_cve pkgFeed cve k :
  value (PackageFeed_cve (D:=D) rpm_Parse heap pkgFeed cve) !! k =
    if decide (k ∈ candidates (D:=D) rpm_Parse (heap cve))
    then Some (pkgFeed !!! k ++ [cve]) else pkgFeed !! k.
Proof.
  rewrite value_PackageFeed_cve. apply lookup_append_loop, NoDup_candidates.
Qed.

Lemma advisories_naming_cons cve feed k :
  advisories_naming (D:=D) rpm_Parse heap k (cve :: feed) =
    if decide (k ∈ candidates (D:=D) rpm_Parse (heap cve))
    then cve :: advisories_naming (D:=D) rpm_Parse heap k feed
    else advisories_naming (D:=D) rpm_Parse heap k feed.
Proof. unfold advisories_naming. by rewrite filter_cons. Qed.

(** The loop over the feed, from any index built so far. *)
Lemma lookup_feed_loop feed pkgFeed k :
  value (for_range feed pkgFeed (PackageFeed_cve (D:=D) rpm_Parse heap)) !! k =
    if decide (advisories_naming (D:=D) rpm_Parse heap k feed = [])
    then pkgFeed !! k
    else Some (pkgFeed !!! k ++ advisories_naming (D:=D) rpm_Parse heap k feed).
Proof.
  rewrite value_for_range. revert pkgFeed.
  induction feed as [|cve feed IH]; intros pkgFeed; cbn [foldl]; [done|].
  rewrite IH. clear IH. rewrite advisories_naming_cons.
  rewrite lookup_total_bucket, lookup_PackageFeed_cve.
  destruct (decide (k ∈ candidates rpm_Parse (heap cve))) as [Hin|Hnin]; cbn.
  - rewrite (decide_False (P:=cve :: _ = [])) by done.
    rewrite <- (assoc_L (++)). cbn.
    by case_decide as Hrest; [rewrite Hrest|].
  - rewrite <- lookup_total_bucket. done.
Qed.

(** The bucket of [k]: present when an advisory of the feed has [k] among
    its candidate names, and then those advisories in feed order. *)
Lemma lookup_index feed k :
  index (D:=D) rpm_Parse heap feed !! k =
    if decide (advisories_naming (D:=D) rpm_Parse heap k feed = []) then None
    else Some (advisories_naming (D:=D) rpm_Parse heap k feed).
Proof.
  unfold index, PackageFeed. rewrite value_bind, lookup_feed_loop.
  by rewrite lookup_total_empty, lookup_empty.
Qed.

Lemma lookup_total_index feed k :
  index (D:=D) rpm_Parse heap feed !!! k = advisories_naming (D:=D) rpm_Parse heap k feed.
Proof.
  rewrite lookup_total_bucket, lookup_index. by case_decide as Hnil; [rewrite Hnil|].
Qed.

(** The index depends on the heap through the candidate names only. *)
Lemma advisories_naming_ext (heap' : ptr → schema.CVE) feed k :
  (∀ cve, cve ∈ feed →
     candidates (D:=D) rpm_Parse (heap' cve) = candidates (D:=D) rpm_Parse (heap cve)) →
  advisories_naming (D:=D) rpm_Parse heap' k feed =
  advisories_naming (D:=D) rpm_Parse heap k feed.
Proof.
  intros Hsame. unfold advisories_naming.
  induction feed as [|cve feed IH]; [done|].
  rewrite !filter_cons, Hsame by left.
  rewrite IH; [done|]. intros cve' Hin. apply Hsame. by right.
Qed.

Lemma occurrences_advisories_naming cve k feed :
  occurrences cve (advisories_naming (D:=D) rpm_Parse heap k feed) =
    if decide (k ∈ candidates (D:=D) rpm_Parse (heap cve))
    then occurrences cve feed else 0.
Proof.
  unfold occurrences, advisories_naming.
  induction feed as [|cve' feed IH]; [by case_decide|].
  rewrite !filter_cons.
  destruct (decide (cve' = cve)) as [->|Hne].
  - destruct (decide (k ∈ candidates rpm_Parse (heap cve))) as [Hin|Hnin].
    + rewrite filter_cons, decide_True by done. cbn. by rewrite IH.
    + done.
  - destruct (decide (k ∈ candidates rpm_Parse (heap cve'))); [|done].
    by rewrite filter_cons, decide_False.
Qed.
End Index.

(** ** ListFixedCVEs *)

Section Resolver.
Context {E D : Type}.
Variable wfn_Parse : string → result E D.
Variable rpm_Parse : string → result E rpm.Package.
Variable Checker : list ptr → result E (rpm.Checker D).
Variable heap : ptr → schema.CVE.

Implicit Types (checker : rpm.Checker D) (p : rpm.Package) (d : D).
Implicit Types (feed : list ptr) (distro pkg : string).

(** The loop over a bucket keeps, in order, the names the oracle accepts. *)
Lemma value_check_loop checker p d (bucket : list ptr) (cves : list string) :
  value (for_range bucket cves (check_cve heap checker p d)) =
    cves ++ ((λ cve, schema.Name (heap cve)) <$>
               filter (λ cve, rpm.Check checker p d (schema.Name (heap cve)) = true) bucket).
Proof.
  rewrite value_for_range. revert cves.
  induction bucket as [|cve bucket IH]; intros cves; cbn [foldl].
  { by rewrite app_nil_r. }
  rewrite IH, filter_cons. unfold check_cve, call_Check.
  rewrite !value_bind. cbn.
  destruct (rpm.Check checker p d (schema.Name (heap cve))); cbn; [|done].
  by rewrite <- (assoc_L (++)).
Qed.

(** The whole call once the two parsers and the constructor succeeded. *)
Lemma value_ListFixedCVEs feed distro pkg d p checker :
  wfn_Parse distro = Ok d → rpm_Parse pkg = Ok p → Checker feed = Ok checker →
  value (ListFixedCVEs wfn_Parse rpm_Parse Checker heap feed distro pkg) =
    Ok (value (for_range (index (D:=D) rpm_Parse heap feed !!! rpm.Name p) []
                 (check_cve heap checker p d))).
Proof.
  intros Hd Hp Hc. unfold ListFixedCVEs, call_wfn_Parse, call_rpm_Parse, call_Checker.
  cbn. rewrite Hd. cbn. rewrite Hp. cbn. rewrite Hc. reflexivity.
Qed.

(** C1. When both parses and the construction of the oracle succeed,
    ListFixedCVEs returns no error and exactly the names of the
    advisories in the bucket of the parsed package's base name for which
    the oracle's Check returns true, in bucket order; those for which
    Check returns false are left out. *)
Theorem ListFixedCVEs_lists_inapplicable feed distro pkg d p checker :
  wfn_Parse distro = Ok d → rpm_Parse pkg = Ok p → Checker feed = Ok checker →
  value (ListFixedCVEs wfn_Parse rpm_Parse Checker heap feed distro pkg) =
    Ok ((λ cve, schema.Name (heap cve)) <$>
          filter (λ cve, rpm.Check checker p d (schema.Name (heap cve)) = true)
                 (index (D:=D) rpm_Parse heap feed !!! rpm.Name p)).
Proof.
  intros Hd Hp Hc. rewrite (value_ListFixedCVEs _ _ _ d p checker) by done.
  by rewrite value_check_loop.
Qed.

(** C2. With a malformed distribution string ListFixedCVEs returns a
    ParseError after the one call to the platform parser: the index is not
    built, the oracle neither constructed nor asked. With a well-formed
    distribution and a malformed package string it returns a ParseError
    after the two calls to the parsers, before the index and the oracle. *)
Theorem ListFixedCVEs_malformed feed distro pkg :
  (∀ err, wfn_Parse distro = Err err →
     stops_at_parsing (ListFixedCVEs wfn_Parse rpm_Parse Checker heap feed distro pkg)
       (cant_parse_distro_cpe distro err) [wfn_Parse_call distro]) ∧
  (∀ d err, wfn_Parse distro = Ok d → rpm_Parse pkg = Err err →
     stops_at_parsing (ListFixedCVEs wfn_Parse rpm_Parse Checker heap feed distro pkg)
       (cant_parse_package_name pkg err) [wfn_Parse_call distro; rpm_Parse_call pkg]).
Proof.
  split.
  - intros err Hd. unfold stops_at_parsing, ListFixedCVEs, call_wfn_Parse.
    cbn. rewrite Hd. cbn.
    split_and!; [done..|]. by repeat constructor.
  - intros d err Hd Hp.
    unfold stops_at_parsing, ListFixedCVEs, call_wfn_Parse, call_rpm_Parse.
    cbn. rewrite Hd. cbn. rewrite Hp. cbn.
    split_and!; [done..|]. by repeat constructor.
Qed.

(** X10. When the oracle cannot be constructed the call returns that
    error, wrapped, after the index was built and before any question to an
    oracle. *)
Lemma ListFixedCVEs_construction_error feed distro pkg d p err :
  wfn_Parse distro = Ok d → rpm_Parse pkg = Ok p → Checker feed = Err err →
  value (ListFixedCVEs wfn_Parse rpm_Parse Checker heap feed distro pkg) =
    Err (list_Wrapf err) ∧
  is_ConstructionError (list_Wrapf err) = true ∧
  trace (ListFixedCVEs wfn_Parse rpm_Parse Checker heap feed distro pkg) =
    [wfn_Parse_call distro; rpm_Parse_call pkg] ++
    trace (PackageFeed (D:=D) rpm_Parse heap feed) ++ [Checker_call].
Proof.
  intros Hd Hp Hc. unfold ListFixedCVEs, call_wfn_Parse, call_rpm_Parse, call_Checker.
  cbn. rewrite Hd. cbn. rewrite Hp. cbn. rewrite Hc. cbn.
  by split_and!.
Qed.

(** C3. When both parses and the construction of the oracle succeed and
    the index has no bucket for the parsed package's base name,
    ListFixedCVEs returns the empty sequence and no error. *)
Theorem ListFixedCVEs_no_bucket feed distro pkg d p checker :
  wfn_Parse distro = Ok d → rpm_Parse pkg = Ok p → Checker feed = Ok checker →
  index (D:=D) rpm_Parse heap feed !! rpm.Name p = None →
  value (ListFixedCVEs wfn_Parse rpm_Parse Checker heap feed distro pkg) = Ok [].
Proof.
  intros Hd Hp Hc Hnone. rewrite (value_ListFixedCVEs _ _ _ d p checker) by done.
  by rewrite lookup_total_bucket, Hnone.
Qed.
End Resolver.

(** ** PackageFeed *)

Section Builder.
Context {E D : Type}.
Variable rpm_Parse : string → result E rpm.Package.
Variable heap : ptr → schema.CVE.
Implicit Types (feed bucket : list ptr) (k : string) (cve : ptr).

Abbreviation index := (index (D:=D) rpm_Parse).
Abbreviation candidates := (candidates (D:=D) rpm_Parse).
Abbreviation advisories_naming := (advisories_naming (D:=D) rpm_Parse).

(** A bucket that exists holds the advisories naming its key, and some
    advisory does. *)
Lemma lookup_index_Some feed k bucket :
  index heap feed !! k = Some bucket →
  bucket = advisories_naming heap k feed ∧ bucket ≠ [].
Proof.
  rewrite lookup_index. case_decide; [done|]. by intros [= <-].
Qed.

Lemma occurrences_bucket cve k feed :
  occurrences cve (index heap feed !!! k) =
    if decide (k ∈ candidates (heap cve)) then occurrences cve feed else 0.
Proof. rewrite lookup_total_index. apply occurrences_advisories_naming. Qed.

(** An advisory is in a bucket no more often than in the feed. *)
Lemma occurrences_bucket_le cve k feed :
  occurrences cve (index heap feed !!! k) ≤ occurrences cve feed.
Proof. rewrite occurrences_bucket. case_decide; lia. Qed.

(** A step of a loop that changes nothing can be left out. *)
Lemma foldl_delete_skip {A S} (f : S → A → S) (l : list A) (i : nat) (x : A) (s : S) :
  l !! i = Some x → (∀ s', f s' x = s') → foldl f s (delete i l) = foldl f s l.
Proof.
  intros Hi Hskip. revert i s Hi.
  induction l as [|y l IH]; intros [|i] s Hi; try done; cbn in *.
  - injection Hi as ->. by rewrite Hskip.
  - by apply IH.
Qed.

(** The candidate names do not change when a release-fix entry that does
    not parse is taken out. *)
Lemma candidates_omit_unparsable (c : schema.CVE) i ar err :
  schema.AffectedRelease c !! i = Some ar →
  rpm_Parse (schema.Package ar) = Err err →
  candidates (omit_AffectedRelease i c) = candidates c.
Proof.
  intros Hi Herr. unfold candidates, pkgs_of.
  rewrite !value_bind. cbn [omit_AffectedRelease schema.AffectedRelease schema.PackageState].
  rewrite (value_for_range (delete i _)), (value_for_range (schema.AffectedRelease c)).
  rewrite (foldl_delete_skip _ _ _ ar); [done..|].
  intros pkgs. rewrite value_look_at_AffectedRelease, Herr. by case_decide.
Qed.

(** C4, position by position. An advisory is in the bucket of each of its
    candidate names as often as it is in the collection, once for each of
    its positions, and in no other bucket. So an advisory that occurs once
    in the collection is in the bucket of any package name at most once,
    and exactly once in the bucket of a base name that both its release-fix
    entries and its package-state entries yield: the candidate names of an
    advisory are deduplicated by string equality before it is put in the
    buckets. *)
Theorem bucketed_per_position feed cve k :
  occurrences cve (index heap feed !!! k) =
    (if decide (k ∈ candidates (heap cve)) then occurrences cve feed else 0) ∧
  (release_fix_yields rpm_Parse (heap cve) k ∨ package_state_yields (heap cve) k →
     occurrences cve (index heap feed !!! k) = occurrences cve feed) ∧
  (occurrences cve feed = 1 →
     occurrences cve (index heap feed !!! k) ≤ 1 ∧
     (release_fix_yields rpm_Parse (heap cve) k → package_state_yields (heap cve) k →
        occurrences cve (index heap feed !!! k) = 1)).
Proof.
  split_and!.
  - apply occurrences_bucket.
  - intros Hyields. apply (elem_of_candidates (D:=D)) in Hyields.
    by rewrite occurrences_bucket, decide_True.
  - intros Honce. split.
    + rewrite <- Honce. apply occurrences_bucket_le.
    + intros Hfix _. rewrite occurrences_bucket, decide_True; [done|].
      apply elem_of_candidates. by left.
Qed.

(** C5. PackageFeed has no error return: its value is the index. A
    release-fix entry whose specifier fails to parse is skipped and the
    build goes on: the index is the one built from the same collection
    with that entry taken out of its advisory. *)
Theorem PackageFeed_skips_unparsable feed cve i ar err :
  schema.AffectedRelease (heap cve) !! i = Some ar →
  rpm_Parse (schema.Package ar) = Err err →
  index heap feed = index (<[cve := omit_AffectedRelease i (heap cve)]> heap) feed.
Proof.
  intros Hi Herr. apply map_eq. intros k. rewrite !lookup_index.
  rewrite (advisories_naming_ext _ heap (<[cve:=_]> heap)); [done|].
  intros cve' _. destruct (decide (cve = cve')) as [<-|Hne].
  - rewrite fn_lookup_insert. by eapply candidates_omit_unparsable.
  - by rewrite fn_lookup_insert_ne.
Qed.

(** C6, with what it needs of the parser. An advisory whose entries yield
    no candidate name is in no bucket. An advisory whose entries yield no
    candidate name that is not empty is in no bucket but, possibly, the one
    of the empty name, and in no bucket at all when the parser returns no
    package with an empty name. A release-fix entry with an empty specifier
    and a package-state entry with an empty name leave the candidate names
    as they are, without a call to the parser. *)
Theorem no_candidate_no_bucket feed cve :
  (candidates (heap cve) = [] →
     ∀ k bucket, index heap feed !! k = Some bucket → cve ∉ bucket) ∧
  ((∀ k, k ∈ candidates (heap cve) → k = "") →
     (∀ k bucket, index heap feed !! k = Some bucket → cve ∈ bucket → k = "") ∧
     ((∀ s rpmPkg, rpm_Parse s = Ok rpmPkg → rpm.Name rpmPkg ≠ "") →
        ∀ k bucket, index heap feed !! k = Some bucket → cve ∉ bucket)) ∧
  (∀ pkgs ar, schema.Package ar = "" →
     look_at_AffectedRelease (D:=D) rpm_Parse pkgs ar = mret pkgs) ∧
  (∀ pkgs ps, schema.PackageName ps = "" →
     look_at_PackageState (D:=D) pkgs ps = mret pkgs).
Proof.
  assert (∀ k bucket, index heap feed !! k = Some bucket → cve ∈ bucket →
            k ∈ candidates (heap cve)) as Hnamed.
  { intros k bucket [-> _]%lookup_index_Some.
    unfold advisories_naming. rewrite list_elem_of_filter. tauto. }
  split_and!.
  - intros Hnone k bucket Hk Hin. specialize (Hnamed k bucket Hk Hin).
    rewrite Hnone in Hnamed. by apply not_elem_of_nil in Hnamed.
  - intros Hempty. split.
    + intros k bucket Hk Hin. eauto.
    + intros Hparser k bucket Hk Hin. specialize (Hnamed k bucket Hk Hin).
      pose proof (Hempty k Hnamed) as ->.
      apply elem_of_candidates in Hnamed
        as [(ar & q & _ & _ & Hq & Hname)|(ps & _ & Hps & Hname)].
      * by apply (Hparser _ _ Hq).
      * done.
  - intros pkgs ar Hempty. unfold look_at_AffectedRelease. by rewrite decide_True.
  - intros pkgs ps Hempty. unfold look_at_PackageState. by rewrite decide_True.
Qed.

(** The index after one more advisory at the end of the feed. *)
Lemma index_snoc feed cve :
  index heap (feed ++ [cve]) =
    foldl (append_cve cve) (index heap feed) (candidates (heap cve)).
Proof.
  unfold index, PackageFeed. rewrite !value_bind, !value_for_range, foldl_app.
  cbn [foldl]. by rewrite value_PackageFeed_cve.
Qed.

(** C7. The advisories of a bucket are in the order of the collection:
    the bucket of a key is the collection restricted to the advisories
    that have the key among their candidate names, and the index of a
    collection with one more advisory at its end is the index of the
    collection with that advisory appended to the buckets of its
    candidate names. *)
Theorem bucket_in_collection_order feed k bucket :
  index heap feed !! k = Some bucket →
  bucket = advisories_naming heap k feed ∧
  bucket `sublist_of` feed ∧
  ∀ cve, index heap (feed ++ [cve]) =
           foldl (append_cve cve) (index heap feed) (candidates (heap cve)).
Proof.
  intros [-> _]%lookup_index_Some. split_and!; [done| |].
  - apply sublist_filter.
  - intros cve. apply index_snoc.
Qed.


(** C9, with what it needs of the parser. Every key of the index maps to
    a non-empty bucket and
    is a name that an advisory of the collection yields, from a
    package-state entry with a non-empty name or from a release-fix entry
    with a non-empty specifier that parses; so every key is a non-empty
    string when the parser returns no package with an empty name. *)
Theorem index_keys feed k bucket :
  index heap feed !! k = Some bucket →
  bucket ≠ [] ∧
  (∃ cve, cve ∈ feed ∧
     (release_fix_yields rpm_Parse (heap cve) k ∨ package_state_yields (heap cve) k)) ∧
  ((∀ s rpmPkg, rpm_Parse s = Ok rpmPkg → rpm.Name rpmPkg ≠ "") → k ≠ "").
Proof.
  intros [-> Hne]%lookup_index_Some.
  assert (∃ cve, cve ∈ feed ∧
    (release_fix_yields rpm_Parse (heap cve) k ∨ package_state_yields (heap cve) k))
    as (cve & Hin & Hyields).
  { destruct (advisories_naming heap k feed) as [|cve rest] eqn:Hb; [done|].
    exists cve. rewrite <- (elem_of_candidates (D:=D)).
    assert (cve ∈ advisories_naming heap k feed) as Hcve by (rewrite Hb; left).
    unfold advisories_naming in Hcve.
    apply list_elem_of_filter in Hcve as [? ?]. done. }
  split_and!; [done|by exists cve|].
  intros Hnamed ->. destruct Hyields as [(ar & q & _ & _ & Hq & Hk)|(ps & _ & Hps & Hk)].
  - by apply (Hnamed _ _ Hq).
  - done.
Qed.

(** C10. The candidate names are those of one occurrence: an advisory at
    two positions of the collection, with [k] among its candidate names,
    is appended to the bucket of [k] at each of the two, so the bucket
    holds it as often as the collection. *)
Theorem bucketed_once_per_occurrence feed1 feed2 feed3 cve k :
  k ∈ candidates (heap cve) →
  index heap (feed1 ++ cve :: feed2 ++ cve :: feed3) !!! k =
    advisories_naming heap k feed1 ++
    cve :: advisories_naming heap k feed2 ++
    cve :: advisories_naming heap k feed3 ∧
  occurrences cve (index heap (feed1 ++ cve :: feed2 ++ cve :: feed3) !!! k) =
    occurrences cve (feed1 ++ cve :: feed2 ++ cve :: feed3).
Proof.
  intros Hk. split.
  - rewrite lookup_total_index. unfold advisories_naming.
    rewrite filter_app, filter_cons, decide_True by done.
    by rewrite filter_app, filter_cons, decide_True by done.
  - by rewrite occurrences_bucket, decide_True.
Qed.
End Builder.

(** ** The model on concrete collections *)

Section Runs.
Local Open Scope positive_scope.

(** The scenarios of the specification. *)
Example scenario_inapplicable :
  value (ListFixedCVEs Demo.wfn_Parse Demo.rpm_Parse (Demo.Checker true) Demo.heap
           [1] Demo.rhel8 "bash-4.4-23.el8") = Ok ["CVE-2020-0001"].
Proof. vm_compute. reflexivity. Qed.

Example scenario_applicable :
  value (ListFixedCVEs Demo.wfn_Parse Demo.rpm_Parse (Demo.Checker false) Demo.heap
           [1] Demo.rhel8 "bash-4.4-23.el8") = Ok [].
Proof. vm_compute. reflexivity. Qed.

Example scenario_empty_specifier :
  map_to_list (index (D:=string) Demo.rpm_Parse Demo.heap [5]) = [("bash", [5])].
Proof. vm_compute. reflexivity. Qed.

(** The stricter stand-in returns no package with an empty name. *)
Lemma rpm_Parse_named_nonempty s rpmPkg :
  Demo.rpm_Parse_named s = Ok rpmPkg → rpm.Name rpmPkg ≠ "".
Proof.
  unfold Demo.rpm_Parse_named. destruct (Demo.rpm_Parse s) as [q|]; [|done].
  case_decide; [done|]. by intros [= <-].
Qed.

Lemma ListFixedCVEs_lists_inapplicable_witness :
  (Demo.wfn_Parse Demo.rhel8 = Ok Demo.rhel8 ∧
   Demo.rpm_Parse "bash-4.4-23.el8" = Ok Demo.bash_4_4_23 ∧
   Demo.Checker_of "CVE-2020-0002" [1; 2; 3] =
     Ok {| rpm.Check := λ _ _ cve, bool_decide (cve = "CVE-2020-0002") |}) ∧
  value (ListFixedCVEs Demo.wfn_Parse Demo.rpm_Parse (Demo.Checker_of "CVE-2020-0002")
           Demo.heap [1; 2; 3] Demo.rhel8 "bash-4.4-23.el8") = Ok ["CVE-2020-0002"].
Proof.
  split; [by split_and!|].
  etrans; [apply (ListFixedCVEs_lists_inapplicable Demo.wfn_Parse Demo.rpm_Parse
                    (Demo.Checker_of "CVE-2020-0002") Demo.heap [1; 2; 3]
                    Demo.rhel8 "bash-4.4-23.el8" Demo.rhel8 Demo.bash_4_4_23);
           reflexivity|].
  vm_compute. reflexivity.
Defined.

Lemma ListFixedCVEs_malformed_witness :
  (Demo.wfn_Parse "redhat:8" = Err "bad cpe" ∧
   stops_at_parsing
     (ListFixedCVEs Demo.wfn_Parse Demo.rpm_Parse (Demo.Checker true) Demo.heap
        [1; 2] "redhat:8" "bash-4.4-23.el8")
     (cant_parse_distro_cpe "redhat:8" "bad cpe") [wfn_Parse_call "redhat:8"]) ∧
  (Demo.wfn_Parse Demo.rhel8 = Ok Demo.rhel8 ∧
   Demo.rpm_Parse "bash" = Err "can't find release" ∧
   stops_at_parsing
     (ListFixedCVEs Demo.wfn_Parse Demo.rpm_Parse (Demo.Checker true) Demo.heap
        [1; 2] Demo.rhel8 "bash")
     (cant_parse_package_name "bash" "can't find release")
     [wfn_Parse_call Demo.rhel8; rpm_Parse_call "bash"]).
Proof.
  split_and!; [reflexivity| |reflexivity..|].
  - apply (proj1 (ListFixedCVEs_malformed Demo.wfn_Parse Demo.rpm_Parse
                    (Demo.Checker true) Demo.heap [1; 2] "redhat:8" "bash-4.4-23.el8")).
    reflexivity.
  - apply (proj2 (ListFixedCVEs_malformed Demo.wfn_Parse Demo.rpm_Parse
                    (Demo.Checker true) Demo.heap [1; 2] Demo.rhel8 "bash") Demo.rhel8);
      reflexivity.
Defined.

Lemma ListFixedCVEs_no_bucket_witness :
  (Demo.wfn_Parse Demo.rhel8 = Ok Demo.rhel8 ∧
   Demo.rpm_Parse "vim-8.0-1.el8" =
     Ok {| rpm.Name := "vim"; rpm.Version := "8.0"; rpm.Release := "1.el8" |} ∧
   Demo.Checker true [1; 2; 3] = Ok (Demo.constant_checker true) ∧
   index (D:=string) Demo.rpm_Parse Demo.heap [1; 2; 3] !! "vim" = None) ∧
  value (ListFixedCVEs Demo.wfn_Parse Demo.rpm_Parse (Demo.Checker true) Demo.heap
           [1; 2; 3] Demo.rhel8 "vim-8.0-1.el8") = Ok [].
Proof.
  split; [split_and!; vm_compute; reflexivity|].
  apply (ListFixedCVEs_no_bucket Demo.wfn_Parse Demo.rpm_Parse (Demo.Checker true)
           Demo.heap [1; 2; 3] Demo.rhel8 "vim-8.0-1.el8" Demo.rhel8
           {| rpm.Name := "vim"; rpm.Version := "8.0"; rpm.Release := "1.el8" |}
           (Demo.constant_checker true)); vm_compute; reflexivity.
Defined.

(** C4, as stated, fails: an advisory at two positions of the collection
    is in the bucket twice. *)
Lemma at_most_once_per_build_counterexample :
  2 ∈ [2; 2] ∧
  release_fix_yields Demo.rpm_Parse (Demo.heap 2) "bash" ∧
  package_state_yields (Demo.heap 2) "bash" ∧
  index (D:=string) Demo.rpm_Parse Demo.heap [2; 2] !!! "bash" = [2; 2] ∧
  let n := occurrences 2 (index (D:=string) Demo.rpm_Parse Demo.heap [2; 2] !!! "bash") in
  ¬ (n ≤ 1)%nat.
Proof.
  split_and!.
  - left.
  - exists {| schema.Package := "bash-4.4-21.el8" |},
      {| rpm.Name := "bash"; rpm.Version := "4.4"; rpm.Release := "21.el8" |}.
    split_and!; [|done|reflexivity..]. do 2 right. left.
  - exists {| schema.PackageName := "bash" |}. split_and!; [|done..]. right. left.
  - vm_compute. reflexivity.
  - vm_compute. lia.
Qed.

Lemma bucketed_per_position_witness :
  (release_fix_yields Demo.rpm_Parse (Demo.heap 2) "bash" ∧
   package_state_yields (Demo.heap 2) "bash") ∧
  (occurrences 2 [2; 1; 2] = 2%nat ∧
   occurrences 2 (index (D:=string) Demo.rpm_Parse Demo.heap [2; 1; 2] !!! "bash") = 2%nat) ∧
  (occurrences 2 [1; 2; 3] = 1%nat ∧
   (let n := occurrences 2 (index (D:=string) Demo.rpm_Parse Demo.heap [1; 2; 3] !!! "bash") in
    (n ≤ 1)%nat) ∧
   occurrences 2 (index (D:=string) Demo.rpm_Parse Demo.heap [1; 2; 3] !!! "bash") = 1%nat).
Proof.
  assert (release_fix_yields Demo.rpm_Parse (Demo.heap 2) "bash") as Hfix.
  { exists {| schema.Package := "bash-4.4-21.el8" |},
      {| rpm.Name := "bash"; rpm.Version := "4.4"; rpm.Release := "21.el8" |}.
    split_and!; [|done|reflexivity..]. do 2 right. left. }
  assert (package_state_yields (Demo.heap 2) "bash") as Hstate.
  { exists {| schema.PackageName := "bash" |}. split_and!; [|done..]. right. left. }
  split; [by split|]. split.
  - split; [reflexivity|].
    destruct (bucketed_per_position (D:=string) Demo.rpm_Parse Demo.heap [2; 1; 2] 2 "bash")
      as (_ & Hposition & _).
    etrans; [apply Hposition; by left|reflexivity].
  - split; [reflexivity|].
    destruct (bucketed_per_position (D:=string) Demo.rpm_Parse Demo.heap [1; 2; 3] 2 "bash")
      as (_ & _ & Honce).
    destruct Honce as [Hle Hone]; [reflexivity|].
    split; [exact Hle|]. by apply Hone.
Defined.

Lemma PackageFeed_skips_unparsable_witness :
  (schema.AffectedRelease (Demo.heap 2) !! 1%nat = Some {| schema.Package := "bash" |} ∧
   Demo.rpm_Parse "bash" = Err "can't find release") ∧
  index (D:=string) Demo.rpm_Parse Demo.heap [1; 2; 3] =
  index (D:=string) Demo.rpm_Parse
    (<[2 := omit_AffectedRelease 1 (Demo.heap 2)]> Demo.heap) [1; 2; 3].
Proof.
  split; [by split|].
  apply (PackageFeed_skips_unparsable (D:=string) Demo.rpm_Parse Demo.heap [1; 2; 3] 2 1
           {| schema.Package := "bash" |} "can't find release"); reflexivity.
Defined.

(** C6, as stated, fails: the one name an advisory yields can be empty,
    and the advisory is then in the bucket of the empty name. *)
Lemma zero_nonempty_names_counterexample :
  candidates (D:=string) Demo.rpm_Parse (Demo.heap 4) = [""] ∧
  (∀ k, k ∈ candidates (D:=string) Demo.rpm_Parse (Demo.heap 4) → k = "") ∧
  index (D:=string) Demo.rpm_Parse Demo.heap [1; 4] !! "" = Some [4] ∧
  ¬ (∀ k bucket,
       index (D:=string) Demo.rpm_Parse Demo.heap [1; 4] !! k = Some bucket → 4 ∉ bucket).
Proof.
  assert (candidates (D:=string) Demo.rpm_Parse (Demo.heap 4) = [""]) as Hnames
    by reflexivity.
  split_and!; [exact Hnames| |vm_compute; reflexivity|].
  - intros k. rewrite Hnames. by intros ->%list_elem_of_singleton.
  - intros Hnone. apply (Hnone "" [4]); [vm_compute; reflexivity|left].
Qed.

Lemma no_candidate_no_bucket_witness :
  (candidates (D:=string) Demo.rpm_Parse (Demo.heap 3) = [] ∧
   ∀ k bucket,
     index (D:=string) Demo.rpm_Parse Demo.heap [1; 3; 2] !! k = Some bucket → 3 ∉ bucket) ∧
  ((∀ k, k ∈ candidates (D:=string) Demo.rpm_Parse (Demo.heap 4) → k = "") ∧
   ∀ k bucket,
     index (D:=string) Demo.rpm_Parse Demo.heap [1; 4; 2] !! k = Some bucket →
     4 ∈ bucket → k = "") ∧
  ((∀ k, k ∈ candidates (D:=string) Demo.rpm_Parse_named (Demo.heap 4) → k = "") ∧
   (∀ s rpmPkg, Demo.rpm_Parse_named s = Ok rpmPkg → rpm.Name rpmPkg ≠ "") ∧
   ∀ k bucket,
     index (D:=string) Demo.rpm_Parse_named Demo.heap [1; 4; 2] !! k = Some bucket →
     4 ∉ bucket) ∧
  look_at_AffectedRelease (D:=string) Demo.rpm_Parse ["zsh"] {| schema.Package := "" |} =
    mret ["zsh"] ∧
  look_at_PackageState (D:=string) ["zsh"] {| schema.PackageName := "" |} = mret ["zsh"].
Proof.
  assert (∀ k, k ∈ candidates (D:=string) Demo.rpm_Parse (Demo.heap 4) → k = "") as Hempty.
  { intros k. change (candidates (D:=string) Demo.rpm_Parse (Demo.heap 4)) with [""].
    by intros ->%list_elem_of_singleton. }
  assert (∀ k, k ∈ candidates (D:=string) Demo.rpm_Parse_named (Demo.heap 4) → k = "")
    as Hempty'.
  { intros k. change (candidates (D:=string) Demo.rpm_Parse_named (Demo.heap 4)) with (@nil string).
    by intros ?%not_elem_of_nil. }
  destruct (no_candidate_no_bucket (D:=string) Demo.rpm_Parse Demo.heap [1; 3; 2] 3)
    as (Hnone & _ & Hrelease & Hstate).
  destruct (no_candidate_no_bucket (D:=string) Demo.rpm_Parse Demo.heap [1; 4; 2] 4)
    as (_ & Honly & _).
  destruct (no_candidate_no_bucket (D:=string) Demo.rpm_Parse_named Demo.heap [1; 4; 2] 4)
    as (_ & Hstrict & _).
  split_and!.
  - reflexivity.
  - apply Hnone. reflexivity.
  - exact Hempty.
  - exact (proj1 (Honly Hempty)).
  - exact Hempty'.
  - apply rpm_Parse_named_nonempty.
  - exact (proj2 (Hstrict Hempty') rpm_Parse_named_nonempty).
  - apply Hrelease. reflexivity.
  - apply Hstate. reflexivity.
Defined.

Lemma bucket_in_collection_order_witness :
  index (D:=string) Demo.rpm_Parse Demo.heap [1; 2; 3; 4; 2] !! "bash" = Some [1; 2; 2] ∧
  [1; 2; 2] = advisories_naming (D:=string) Demo.rpm_Parse Demo.heap "bash" [1; 2; 3; 4; 2] ∧
  [1; 2; 2] `sublist_of` [1; 2; 3; 4; 2] ∧
  ∀ cve, index (D:=string) Demo.rpm_Parse Demo.heap ([1; 2; 3; 4; 2] ++ [cve]) =
           foldl (append_cve cve) (index (D:=string) Demo.rpm_Parse Demo.heap [1; 2; 3; 4; 2])
             (candidates (D:=string) Demo.rpm_Parse (Demo.heap cve)).
Proof.
  split; [vm_compute; reflexivity|].
  apply (bucket_in_collection_order (D:=string) Demo.rpm_Parse Demo.heap
           [1; 2; 3; 4; 2] "bash" [1; 2; 2]).
  vm_compute. reflexivity.
Defined.



(** C9, as stated, fails: a specifier that is not empty can parse to a
    package whose name is, and that name becomes a key. *)
Lemma nonempty_keys_counterexample :
  schema.AffectedRelease (Demo.heap 4) = [ {| schema.Package := "-4.4-20.el8" |} ] ∧
  Demo.rpm_Parse "-4.4-20.el8" =
    Ok {| rpm.Name := ""; rpm.Version := "4.4"; rpm.Release := "20.el8" |} ∧
  index (D:=string) Demo.rpm_Parse Demo.heap [1; 4] !! "" = Some [4] ∧
  ¬ (∀ k bucket, index (D:=string) Demo.rpm_Parse Demo.heap [1; 4] !! k = Some bucket →
       k ≠ "" ∧ bucket ≠ []).
Proof.
  split_and!; [reflexivity|reflexivity|vm_compute; reflexivity|].
  intros Hkeys. destruct (Hkeys "" [4]) as [Hkey _]; [vm_compute; reflexivity|done].
Qed.

Lemma index_keys_witness :
  index (D:=string) Demo.rpm_Parse_named Demo.heap [1; 2; 4] !! "zsh" = Some [2] ∧
  (∀ s rpmPkg, Demo.rpm_Parse_named s = Ok rpmPkg → rpm.Name rpmPkg ≠ "") ∧
  [2] ≠ [] ∧
  (∃ cve, cve ∈ [1; 2; 4] ∧
     (release_fix_yields Demo.rpm_Parse_named (Demo.heap cve) "zsh" ∨
      package_state_yields (Demo.heap cve) "zsh")) ∧
  "zsh" ≠ "".
Proof.
  destruct (index_keys (D:=string) Demo.rpm_Parse_named Demo.heap [1; 2; 4] "zsh" [2])
    as (Hbucket & Hyields & Hkey); [vm_compute; reflexivity|].
  split_and!; [vm_compute; reflexivity|apply rpm_Parse_named_nonempty|done..|].
  apply Hkey, rpm_Parse_named_nonempty.
Defined.

Lemma bucketed_once_per_occurrence_witness :
  "bash" ∈ candidates (D:=string) Demo.rpm_Parse (Demo.heap 2) ∧
  index (D:=string) Demo.rpm_Parse Demo.heap ([1] ++ 2 :: [3] ++ 2 :: [4]) !!! "bash" =
    [1; 2; 2] ∧
  occurrences 2 (index (D:=string) Demo.rpm_Parse Demo.heap ([1] ++ 2 :: [3] ++ 2 :: [4])
                   !!! "bash") = 2%nat.
Proof.
  assert ("bash" ∈ candidates (D:=string) Demo.rpm_Parse (Demo.heap 2)) as Hk.
  { vm_compute. left. }
  destruct (bucketed_once_per_occurrence (D:=string) Demo.rpm_Parse Demo.heap [1] [3] [4] 2
              "bash" Hk) as [Hbucket Hocc].
  split_and!; [exact Hk| |].
  - etrans; [exact Hbucket|]. vm_compute. reflexivity.
  - etrans; [exact Hocc|]. vm_compute. reflexivity.
Defined.
End Runs.

(** ** More on addPackage and the candidate names *)

Section Names.
Context {E D : Type}.
Variable rpm_Parse : string → result E rpm.Package.
Implicit Types (pkgs l : list string) (pkg k : string) (c : schema.CVE).

(** X1. addPackage returns the list as it is when the package is in it,
    and the list with the package at its end when it is not. *)
Theorem addPackage_only_if_absent pkgs pkg :
  (pkg ∈ pkgs → addPackage pkgs pkg = pkgs) ∧
  (pkg ∉ pkgs → addPackage pkgs pkg = pkgs ++ [pkg]).
Proof.
  rewrite addPackage_spec. split; intros Hin.
  - by rewrite decide_True.
  - by rewrite decide_False.
Qed.

(** X2. Adding a package a second time changes nothing, and adding a
    package moves none of the names that were there. *)
Theorem addPackage_idempotent pkgs pkg :
  addPackage (addPackage pkgs pkg) pkg = addPackage pkgs pkg ∧
  pkgs `prefix_of` addPackage pkgs pkg.
Proof.
  split.
  - rewrite (addPackage_spec (addPackage pkgs pkg)). rewrite decide_True; [done|].
    apply elem_of_addPackage. by right.
  - rewrite addPackage_spec. case_decide; [done|]. by apply prefix_app_r.
Qed.

(** Adding the names of [l] one after the other to [pkgs]. *)
Lemma foldl_addPackage pkgs l :
  foldl addPackage pkgs l = pkgs ++ filter (λ y, y ∉ pkgs) (first_occurrences l).
Proof.
  revert pkgs. induction l as [|x l IH]; intros pkgs; cbn [foldl first_occurrences].
  { by rewrite app_nil_r. }
  rewrite IH, addPackage_spec, filter_cons. clear IH.
  destruct (decide (x ∈ pkgs)) as [Hin|Hnin].
  - rewrite decide_False by (intros Hx; by apply Hx).
    rewrite list_filter_filter. f_equal. apply list_filter_iff.
    intros y. split; [|tauto]. intros Hy. split; [done|]. by intros ->.
  - rewrite decide_True by done. rewrite <- (assoc_L (++)). cbn.
    do 2 f_equal. rewrite list_filter_filter. apply list_filter_iff.
    intros y. rewrite elem_of_app, list_elem_of_singleton. tauto.
Qed.

Lemma filter_not_elem_of_nil l : filter (λ y : string, y ∉ []) l = l.
Proof.
  induction l as [|x l IH]; [done|].
  rewrite filter_cons, decide_True by apply not_elem_of_nil. by rewrite IH.
Qed.

(** X3. A sequence of addPackage calls from the empty list keeps each name
    where it comes first and drops its repetitions; the list it gives has
    no name twice and has the names that were added. *)
Theorem addPackage_first_occurrences l :
  foldl addPackage [] l = first_occurrences l ∧
  NoDup (foldl addPackage [] l) ∧
  ∀ k, k ∈ foldl addPackage [] l ↔ k ∈ l.
Proof.
  split_and!.
  - rewrite foldl_addPackage. cbn. apply filter_not_elem_of_nil.
  - assert (∀ pkgs, NoDup pkgs → NoDup (foldl addPackage pkgs l)) as Hnd.
    { induction l as [|x l IH]; intros pkgs Hpkgs; [done|].
      cbn [foldl]. by apply IH, NoDup_addPackage. }
    apply Hnd, NoDup_nil_2.
  - assert (∀ pkgs k, k ∈ foldl addPackage pkgs l ↔ k ∈ pkgs ∨ k ∈ l) as Hin.
    { induction l as [|x l IH]; intros pkgs k; cbn [foldl].
      - split; [by left|]. by intros [?|?%not_elem_of_nil].
      - rewrite IH, elem_of_addPackage, elem_of_cons. tauto. }
    intros k. rewrite Hin. split; [|by right]. by intros [?%not_elem_of_nil|?].
Qed.

(** The two loops add the names the entries give, in order. *)
Lemma candidates_foldl c :
  candidates (D:=D) rpm_Parse c = foldl addPackage [] (yielded_names rpm_Parse c).
Proof.
  unfold candidates, pkgs_of, yielded_names.
  rewrite value_bind, !value_for_range, foldl_app.
  assert (∀ ars pkgs,
    foldl (λ s x, value (look_at_AffectedRelease (D:=D) rpm_Parse s x)) pkgs ars =
    foldl addPackage pkgs (omap (name_of_AffectedRelease rpm_Parse) ars)) as ->.
  { induction ars as [|ar ars IH]; intros pkgs; [done|]. cbn [foldl omap list_omap].
    rewrite IH, value_look_at_AffectedRelease. unfold name_of_AffectedRelease.
    case_decide; [done|]. by destruct (rpm_Parse _). }
  generalize (foldl addPackage [] (omap (name_of_AffectedRelease rpm_Parse)
                                     (schema.AffectedRelease c))).
  induction (schema.PackageState c) as [|ps pss IH]; intros pkgs; [done|].
  cbn [foldl omap list_omap]. rewrite IH, value_look_at_PackageState.
  unfold name_of_PackageState. by case_decide.
Qed.

(** X4. The candidate names of an advisory are the names its entries give,
    those of the release-fix entries before those of the package-state
    entries, each name where it comes first and not again. *)
Theorem candidates_first_occurrences c :
  candidates (D:=D) rpm_Parse c = first_occurrences (yielded_names rpm_Parse c).
Proof.
  rewrite candidates_foldl, foldl_addPackage. cbn. apply filter_not_elem_of_nil.
Qed.
End Names.

(** ** More on PackageFeed *)

Section Build.
Context {E D : Type}.
Variable rpm_Parse : string → result E rpm.Package.
Variable heap : ptr → schema.CVE.
Implicit Types (feed bucket : list ptr) (k : string) (cve : ptr).

(** The calls of a loop whose body makes the same calls from every state. *)
Lemma trace_for_range {A S} (xs : list A) (s : S) (body : S → A → M D S)
    (g : A → list (event D)) :
  (∀ s' x, trace (body s' x) = g x) →
  trace (for_range xs s body) = flat_map g xs.
Proof.
  intros Hg. revert s. induction xs as [|x xs IH]; intros s; [done|].
  cbn [for_range flat_map]. by rewrite trace_bind, Hg, IH.
Qed.

Lemma flat_map_nil {A B} (xs : list A) : flat_map (λ _, @nil B) xs = [].
Proof. by induction xs. Qed.

Lemma trace_look_at_AffectedRelease pkgs ar :
  trace (look_at_AffectedRelease (D:=D) rpm_Parse pkgs ar) =
    calls_of_AffectedRelease rpm_Parse ar.
Proof.
  unfold look_at_AffectedRelease, calls_of_AffectedRelease. case_decide; [done|].
  unfold call_rpm_Parse. cbn. by destruct (rpm_Parse _).
Qed.

Lemma trace_pkgs_of (c : schema.CVE) :
  trace (pkgs_of (D:=D) rpm_Parse c) =
    flat_map (calls_of_AffectedRelease rpm_Parse) (schema.AffectedRelease c).
Proof.
  unfold pkgs_of. rewrite trace_bind.
  rewrite (trace_for_range _ _ _ (calls_of_AffectedRelease rpm_Parse))
    by apply trace_look_at_AffectedRelease.
  rewrite (trace_for_range _ _ _ (λ _, [])).
  - by rewrite flat_map_nil, app_nil_r.
  - intros pkgs ps. unfold look_at_PackageState. by case_decide.
Qed.

Lemma trace_PackageFeed_cve (pkgFeed : gmap string (list ptr)) cve :
  trace (PackageFeed_cve (D:=D) rpm_Parse heap pkgFeed cve) =
    flat_map (calls_of_AffectedRelease rpm_Parse) (schema.AffectedRelease (heap cve)).
Proof.
  unfold PackageFeed_cve. rewrite trace_bind, trace_pkgs_of.
  rewrite (trace_for_range _ _ _ (λ _, [])) by done.
  by rewrite flat_map_nil, app_nil_r.
Qed.

(** X5. What a build calls: the parser once for each release-fix entry
    that has a specifier, in the order of the collection and of the
    entries, and the log right after each call of the parser that failed.
    Package-state entries and entries without specifier cause no call. *)
Theorem PackageFeed_calls feed :
  trace (PackageFeed (D:=D) rpm_Parse heap feed) =
    PackageFeed_call :: calls_of_feed rpm_Parse heap feed.
Proof.
  unfold PackageFeed, calls_of_feed. rewrite trace_bind. cbn [trace emit fst app].
  f_equal. apply trace_for_range. intros pkgFeed cve. apply trace_PackageFeed_cve.
Qed.

(** X6. A build logs a specifier exactly when an advisory of the
    collection has a release-fix entry with that specifier, the specifier is
    not empty and the parser fails on it. *)
Theorem PackageFeed_logs_unparsable feed s :
  log_Printf_call s ∈ trace (PackageFeed (D:=D) rpm_Parse heap feed) ↔
  ∃ cve ar err, cve ∈ feed ∧ ar ∈ schema.AffectedRelease (heap cve) ∧
    schema.Package ar = s ∧ s ≠ "" ∧ rpm_Parse s = Err err.
Proof.
  rewrite PackageFeed_calls, elem_of_cons. unfold calls_of_feed.
  rewrite list_elem_of_In, in_flat_map. split.
  - intros [?|(cve & Hcve & Hin)]; [done|].
    apply in_flat_map in Hin as (ar & Har & Hin).
    apply list_elem_of_In in Hcve, Har, Hin. unfold calls_of_AffectedRelease in Hin.
    case_decide as Hne; [by apply not_elem_of_nil in Hin|].
    apply elem_of_cons in Hin as [?|Hin]; [done|].
    destruct (rpm_Parse (schema.Package ar)) as [|err] eqn:Hparse.
    { by apply not_elem_of_nil in Hin. }
    apply list_elem_of_singleton in Hin as [= ->]. by exists cve, ar, err.
  - intros (cve & ar & err & Hcve & Har & <- & Hne & Hparse). right.
    exists cve. split; [by apply list_elem_of_In|].
    apply in_flat_map. exists ar. split; [by apply list_elem_of_In|].
    apply list_elem_of_In. unfold calls_of_AffectedRelease.
    rewrite decide_False, Hparse by done. right. left.
Qed.

(** X7. An advisory is in the bucket of a name exactly when it is in the
    collection and the name is one of its candidate names, and a name is a
    key exactly when it is a candidate name of an advisory of the
    collection. *)
Theorem index_members feed k :
  (∀ cve, cve ∈ index (D:=D) rpm_Parse heap feed !!! k ↔
          cve ∈ feed ∧ k ∈ candidates (D:=D) rpm_Parse (heap cve)) ∧
  (k ∈ dom (index (D:=D) rpm_Parse heap feed) ↔
   ∃ cve, cve ∈ feed ∧ k ∈ candidates (D:=D) rpm_Parse (heap cve)).
Proof.
  assert (∀ cve, cve ∈ advisories_naming (D:=D) rpm_Parse heap k feed ↔
            cve ∈ feed ∧ k ∈ candidates (D:=D) rpm_Parse (heap cve)) as Hmem.
  { intros cve. unfold advisories_naming. rewrite list_elem_of_filter. tauto. }
  split.
  - intros cve. by rewrite lookup_total_index.
  - rewrite elem_of_dom, lookup_index. case_decide as Hnil.
    + split; [by intros [? [=]]|]. intros (cve & Hcve).
      apply Hmem in Hcve. rewrite Hnil in Hcve. by apply not_elem_of_nil in Hcve.
    + split; [|by eexists]. intros _.
      destruct (advisories_naming rpm_Parse heap k feed) as [|cve rest] eqn:Hb; [done|].
      exists cve. apply Hmem. left.
Qed.

(** X8. The index of two collections one after the other has, under each
    name, the bucket of the first followed by the bucket of the second;
    the index of the empty collection has no key. *)
Theorem index_app feed1 feed2 :
  index (D:=D) rpm_Parse heap [] = ∅ ∧
  index (D:=D) rpm_Parse heap (feed1 ++ feed2) =
    union_with (λ b1 b2, Some (b1 ++ b2))
      (index (D:=D) rpm_Parse heap feed1) (index (D:=D) rpm_Parse heap feed2) ∧
  ∀ k, index (D:=D) rpm_Parse heap (feed1 ++ feed2) !!! k =
       index (D:=D) rpm_Parse heap feed1 !!! k ++ index (D:=D) rpm_Parse heap feed2 !!! k.
Proof.
  assert (∀ k, advisories_naming (D:=D) rpm_Parse heap k (feed1 ++ feed2) =
               advisories_naming (D:=D) rpm_Parse heap k feed1 ++
               advisories_naming (D:=D) rpm_Parse heap k feed2) as Happ.
  { intros k. unfold advisories_naming. apply filter_app. }
  split_and!; [done| |].
  - apply map_eq. intros k. rewrite lookup_union_with, !lookup_index, Happ.
    destruct (advisories_naming rpm_Parse heap k feed1) as [|c1 b1];
      destruct (advisories_naming rpm_Parse heap k feed2) as [|c2 b2]; cbn; try done.
    by rewrite app_nil_r.
  - intros k. by rewrite !lookup_total_index.
Qed.
End Build.

(** ** More on ListFixedCVEs *)

Section Resolve.
Context {E D : Type}.
Variable wfn_Parse : string → result E D.
Variable rpm_Parse : string → result E rpm.Package.
Variable Checker : list ptr → result E (rpm.Checker D).
Variable heap : ptr → schema.CVE.
Implicit Types (checker : rpm.Checker D) (p : rpm.Package) (d : D).
Implicit Types (feed : list ptr) (distro pkg : string).

(** The calls of the loop over a bucket. *)
Lemma trace_check_loop checker p d (bucket : list ptr) (cves : list string) :
  trace (for_range bucket cves (check_cve heap checker p d)) =
    (λ cve, Check_call p d (schema.Name (heap cve))) <$> bucket.
Proof.
  rewrite (trace_for_range _ _ _ (λ cve, [Check_call p d (schema.Name (heap cve))])).
  - induction bucket as [|cve bucket IH]; [done|]. cbn. by rewrite IH.
  - intros cves' cve. unfold check_cve, call_Check. rewrite trace_bind. cbn.
    by destruct (rpm.Check _ _ _ _).
Qed.

Lemma trace_ListFixedCVEs feed distro pkg d p checker :
  wfn_Parse distro = Ok d → rpm_Parse pkg = Ok p → Checker feed = Ok checker →
  trace (ListFixedCVEs wfn_Parse rpm_Parse Checker heap feed distro pkg) =
    [wfn_Parse_call distro; rpm_Parse_call pkg] ++
    trace (PackageFeed (D:=D) rpm_Parse heap feed) ++
    Checker_call ::
    trace (for_range (index (D:=D) rpm_Parse heap feed !!! rpm.Name p) []
             (check_cve heap checker p d)).
Proof.
  intros Hd Hp Hc. unfold ListFixedCVEs, call_wfn_Parse, call_rpm_Parse, call_Checker.
  cbn. rewrite Hd. cbn. rewrite Hp. cbn. rewrite Hc. cbn.
  do 5 f_equal. exact (app_nil_r _).
Qed.

(** X9. When both parses and the construction of the oracle succeed, the
    calls are, in this order: the platform parser, the specifier parser,
    the build of the index, the constructor of the oracle, and one question
    to the oracle for each advisory of the bucket of the package's name, in
    bucket order, with the parsed package, the parsed distribution and the
    name of the advisory. No other advisory is put to the oracle. *)
Theorem ListFixedCVEs_calls feed distro pkg d p checker :
  wfn_Parse distro = Ok d → rpm_Parse pkg = Ok p → Checker feed = Ok checker →
  trace (ListFixedCVEs wfn_Parse rpm_Parse Checker heap feed distro pkg) =
    [wfn_Parse_call distro; rpm_Parse_call pkg] ++
    trace (PackageFeed (D:=D) rpm_Parse heap feed) ++
    Checker_call ::
    ((λ cve, Check_call p d (schema.Name (heap cve))) <$>
       index (D:=D) rpm_Parse heap feed !!! rpm.Name p).
Proof.
  intros Hd Hp Hc. rewrite (trace_ListFixedCVEs _ _ _ d p checker) by done.
  by rewrite trace_check_loop.
Qed.

(** X11. When both parses and the construction of the oracle succeed, the
    result is the collection itself, restricted to the advisories that have
    the package's name among their candidate names and that the oracle
    accepts, and mapped to their names. *)
Theorem ListFixedCVEs_filters_collection feed distro pkg d p checker :
  wfn_Parse distro = Ok d → rpm_Parse pkg = Ok p → Checker feed = Ok checker →
  value (ListFixedCVEs wfn_Parse rpm_Parse Checker heap feed distro pkg) =
    Ok ((λ cve, schema.Name (heap cve)) <$>
          filter (λ cve, rpm.Check checker p d (schema.Name (heap cve)) = true ∧
                         rpm.Name p ∈ candidates (D:=D) rpm_Parse (heap cve)) feed).
Proof.
  intros Hd Hp Hc. rewrite (value_ListFixedCVEs _ _ _ _ _ _ _ d p checker) by done.
  rewrite value_check_loop, lookup_total_index. unfold advisories_naming.
  by rewrite list_filter_filter.
Qed.

(** X12. The names returned come in the order of the collection, and no
    name comes twice when the advisories of the collection have pairwise
    different names. *)
Theorem ListFixedCVEs_in_collection_order feed distro pkg d p checker :
  wfn_Parse distro = Ok d → rpm_Parse pkg = Ok p → Checker feed = Ok checker →
  ∃ cves, value (ListFixedCVEs wfn_Parse rpm_Parse Checker heap feed distro pkg) = Ok cves ∧
    cves `sublist_of` ((λ cve, schema.Name (heap cve)) <$> feed) ∧
    (NoDup ((λ cve, schema.Name (heap cve)) <$> feed) → NoDup cves).
Proof.
  intros Hd Hp Hc. eexists. split.
  { rewrite (value_ListFixedCVEs _ _ _ _ _ _ _ d p checker) by done.
    by rewrite value_check_loop, lookup_total_index. }
  assert (((λ cve, schema.Name (heap cve)) <$>
             filter (λ cve, rpm.Check checker p d (schema.Name (heap cve)) = true)
               (advisories_naming (D:=D) rpm_Parse heap (rpm.Name p) feed))
          `sublist_of` ((λ cve, schema.Name (heap cve)) <$> feed)) as Hsub.
  { apply fmap_sublist. etrans; [apply sublist_filter|]. apply sublist_filter. }
  split; [exact Hsub|]. intros Hnd. by eapply sublist_NoDup.
Qed.

(** X13. ListFixedCVEs returns a list exactly when the two parsers and the
    constructor of the oracle all succeed; every other call returns an
    error. *)
Theorem ListFixedCVEs_succeeds_iff feed distro pkg :
  (∃ cves, value (ListFixedCVEs wfn_Parse rpm_Parse Checker heap feed distro pkg) = Ok cves) ↔
  (∃ d p checker, wfn_Parse distro = Ok d ∧ rpm_Parse pkg = Ok p ∧ Checker feed = Ok checker).
Proof.
  split.
  - intros [cves Hok]. revert Hok.
    unfold ListFixedCVEs, call_wfn_Parse, call_rpm_Parse, call_Checker. cbn.
    destruct (wfn_Parse distro) as [d|]; cbn; [|done].
    destruct (rpm_Parse pkg) as [p|]; cbn; [|done].
    destruct (Checker feed) as [checker|]; cbn; [|done].
    intros _. by exists d, p, checker.
  - intros (d & p & checker & Hd & Hp & Hc).
    rewrite (value_ListFixedCVEs _ _ _ _ _ _ _ d p checker) by done. by eexists.
Qed.
End Resolve.

(** ** More runs on concrete collections *)

Section MoreRuns.
Local Open Scope positive_scope.

Lemma addPackage_only_if_absent_witness :
  ("bash" ∈ ["bash"; "zsh"] ∧ addPackage ["bash"; "zsh"] "bash" = ["bash"; "zsh"]) ∧
  (("vim" ∉ ["bash"; "zsh"]) ∧ addPackage ["bash"; "zsh"] "vim" = ["bash"; "zsh"; "vim"]).
Proof.
  assert ("bash" ∈ ["bash"; "zsh"]) as Hin by left.
  assert ("vim" ∉ ["bash"; "zsh"]) as Hnin.
  { intros H. by repeat (apply elem_of_cons in H as [?|H]; [done|]);
      apply not_elem_of_nil in H. }
  split; (split; [done|]).
  - exact (proj1 (addPackage_only_if_absent ["bash"; "zsh"] "bash") Hin).
  - exact (proj2 (addPackage_only_if_absent ["bash"; "zsh"] "vim") Hnin).
Defined.

Lemma ListFixedCVEs_calls_witness :
  (Demo.wfn_Parse Demo.rhel8 = Ok Demo.rhel8 ∧
   Demo.rpm_Parse "bash-4.4-23.el8" = Ok Demo.bash_4_4_23 ∧
   Demo.Checker true [3; 1; 2] = Ok (Demo.constant_checker true)) ∧
  trace (ListFixedCVEs Demo.wfn_Parse Demo.rpm_Parse (Demo.Checker true) Demo.heap
           [3; 1; 2] Demo.rhel8 "bash-4.4-23.el8") =
    [ wfn_Parse_call Demo.rhel8; rpm_Parse_call "bash-4.4-23.el8";
      PackageFeed_call;
      rpm_Parse_call "bash"; log_Printf_call "bash";
      rpm_Parse_call "bash-4.4-20.el8";
      rpm_Parse_call "bash"; log_Printf_call "bash"; rpm_Parse_call "bash-4.4-21.el8";
      Checker_call;
      Check_call Demo.bash_4_4_23 Demo.rhel8 "CVE-2020-0001";
      Check_call Demo.bash_4_4_23 Demo.rhel8 "CVE-2020-0002" ].
Proof.
  split; [by split_and!|].
  etrans; [apply (ListFixedCVEs_calls Demo.wfn_Parse Demo.rpm_Parse (Demo.Checker true)
                    Demo.heap [3; 1; 2] Demo.rhel8 "bash-4.4-23.el8" Demo.rhel8
                    Demo.bash_4_4_23 (Demo.constant_checker true)); reflexivity|].
  vm_compute. reflexivity.
Defined.

Lemma ListFixedCVEs_construction_error_witness :
  (Demo.wfn_Parse Demo.rhel8 = Ok Demo.rhel8 ∧
   Demo.rpm_Parse "bash-4.4-23.el8" = Ok Demo.bash_4_4_23 ∧
   Demo.Checker_fails [1; 2] = Err "no checker") ∧
  value (ListFixedCVEs Demo.wfn_Parse Demo.rpm_Parse Demo.Checker_fails Demo.heap
           [1; 2] Demo.rhel8 "bash-4.4-23.el8") = Err (list_Wrapf "no checker") ∧
  is_ConstructionError (list_Wrapf "no checker") = true ∧
  trace (ListFixedCVEs Demo.wfn_Parse Demo.rpm_Parse Demo.Checker_fails Demo.heap
           [1; 2] Demo.rhel8 "bash-4.4-23.el8") =
    ([wfn_Parse_call Demo.rhel8; rpm_Parse_call "bash-4.4-23.el8"] ++
     trace (PackageFeed (D:=string) Demo.rpm_Parse Demo.heap [1; 2]) ++ [Checker_call])%list.
Proof.
  split; [by split_and!|].
  apply (ListFixedCVEs_construction_error Demo.wfn_Parse Demo.rpm_Parse Demo.Checker_fails
           Demo.heap [1; 2] Demo.rhel8 "bash-4.4-23.el8" Demo.rhel8 Demo.bash_4_4_23
           "no checker"); reflexivity.
Defined.

Lemma ListFixedCVEs_filters_collection_witness :
  (Demo.wfn_Parse Demo.rhel8 = Ok Demo.rhel8 ∧
   Demo.rpm_Parse "bash-4.4-23.el8" = Ok Demo.bash_4_4_23 ∧
   Demo.Checker_of "CVE-2020-0005" [5; 3; 1; 5] =
     Ok {| rpm.Check := λ _ _ cve, bool_decide (cve = "CVE-2020-0005") |}) ∧
  value (ListFixedCVEs Demo.wfn_Parse Demo.rpm_Parse (Demo.Checker_of "CVE-2020-0005")
           Demo.heap [5; 3; 1; 5] Demo.rhel8 "bash-4.4-23.el8") =
    Ok ["CVE-2020-0005"; "CVE-2020-0005"].
Proof.
  split; [by split_and!|].
  etrans; [apply (ListFixedCVEs_filters_collection Demo.wfn_Parse Demo.rpm_Parse
                    (Demo.Checker_of "CVE-2020-0005") Demo.heap [5; 3; 1; 5]
                    Demo.rhel8 "bash-4.4-23.el8" Demo.rhel8 Demo.bash_4_4_23);
           reflexivity|].
  vm_compute. reflexivity.
Defined.

Lemma ListFixedCVEs_in_collection_order_witness :
  (Demo.wfn_Parse Demo.rhel8 = Ok Demo.rhel8 ∧
   Demo.rpm_Parse "bash-4.4-23.el8" = Ok Demo.bash_4_4_23 ∧
   Demo.Checker true [2; 3; 1] = Ok (Demo.constant_checker true) ∧
   NoDup ((λ cve, schema.Name (Demo.heap cve)) <$> [2; 3; 1])) ∧
  ∃ cves,
    value (ListFixedCVEs Demo.wfn_Parse Demo.rpm_Parse (Demo.Checker true) Demo.heap
             [2; 3; 1] Demo.rhel8 "bash-4.4-23.el8") = Ok cves ∧
    cves `sublist_of` ((λ cve, schema.Name (Demo.heap cve)) <$> [2; 3; 1]) ∧
    NoDup cves.
Proof.
  assert (NoDup ((λ cve, schema.Name (Demo.heap cve)) <$> [2; 3; 1])) as Hnd.
  { cbn. apply (bool_decide_unpack _). vm_compute. exact I. }
  split; [by split_and!|].
  destruct (ListFixedCVEs_in_collection_order Demo.wfn_Parse Demo.rpm_Parse
              (Demo.Checker true) Demo.heap [2; 3; 1] Demo.rhel8 "bash-4.4-23.el8"
              Demo.rhel8 Demo.bash_4_4_23 (Demo.constant_checker true))
    as (cves & Hval & Hsub & Hdistinct); [reflexivity..|].
  exists cves. split_and!; [exact Hval|exact Hsub|exact (Hdistinct Hnd)].
Defined.
End MoreRuns.
